(** * LM Studio web chat client: session store and table-aware renderer

    A shallow embedding of [src/main.ts] (settings, session list, current
    session, message sending, search) and of the markdown table renderer
    [renderMessageContentWithTables], followed by the properties proved
    about them.

    JavaScript strings are sequences of UTF-16 code units; they are modelled
    as [list N].  Timestamps ([Date.now()], milliseconds) are integers [Z].
    The DOM fragment built by the renderer is modelled by the list of its
    block children. *)

From Stdlib Require Import Strings.String Strings.Ascii Numbers.DecimalString.
From Stdlib Require Import Floats.PrimFloat.
From Stdlib Require Import NArith ZArith Bool Arith Lia.
From Stdlib Require Import List Sorting.Permutation Sorting.Sorted.
Import ListNotations.

Set Implicit Arguments.
Set Warnings "-inexact-float".

(* ================================================================== *)
(** * JavaScript strings *)
(* ================================================================== *)

Abbreviation jschar := N (only parsing).
Abbreviation jsstring := (list N) (only parsing).

(** Decoding of a UTF-8 source literal into UTF-16 code units. *)
Fixpoint utf8_decode (bs : list N) : jsstring :=
  match bs with
  | [] => []
  | b0 :: r0 =>
      if (b0 <? 128)%N then b0 :: utf8_decode r0
      else if (b0 <? 224)%N then
        match r0 with
        | b1 :: r1 => ((b0 - 192) * 64 + (b1 - 128))%N :: utf8_decode r1
        | _ => []
        end
      else if (b0 <? 240)%N then
        match r0 with
        | b1 :: b2 :: r2 =>
            ((b0 - 224) * 4096 + (b1 - 128) * 64 + (b2 - 128))%N
              :: utf8_decode r2
        | _ => []
        end
      else
        match r0 with
        | b1 :: b2 :: b3 :: r3 =>
            let cp := ((b0 - 240) * 262144 + (b1 - 128) * 4096
                       + (b2 - 128) * 64 + (b3 - 128) - 65536)%N in
            (55296 + cp / 1024)%N :: (56320 + cp mod 1024)%N
              :: utf8_decode r3
        | _ => []
        end
  end.

Definition js (s : String.string) : jsstring :=
  utf8_decode (map N_of_ascii (list_ascii_of_string s)).
Arguments js s%_string.

Definition ch_LF : jschar := 10%N.
Definition ch_CR : jschar := 13%N.
Definition ch_space : jschar := 32%N.
Definition ch_star : jschar := 42%N.
Definition ch_hyphen : jschar := 45%N.
Definition ch_colon : jschar := 58%N.
Definition ch_backtick : jschar := 96%N.
Definition ch_pipe : jschar := 124%N.

(** ECMAScript [LineTerminator]: LF, CR, LS, PS. *)
Definition isLineTerminator (c : jschar) : bool :=
  (c =? 10)%N || (c =? 13)%N || (c =? 8232)%N || (c =? 8233)%N.

(** ECMAScript [WhiteSpace] and [LineTerminator]: the characters removed by
    [String.prototype.trim] and matched by the regular expression class
    [\s]. *)
Definition isWhiteSpace (c : jschar) : bool :=
  ((9 <=? c) && (c <=? 13))%N || (c =? 32)%N || (c =? 160)%N
  || (c =? 5760)%N || ((8192 <=? c) && (c <=? 8202))%N
  || (c =? 8232)%N || (c =? 8233)%N || (c =? 8239)%N || (c =? 8287)%N
  || (c =? 12288)%N || (c =? 65279)%N.

Fixpoint str_eqb (a b : jsstring) : bool :=
  match a, b with
  | [], [] => true
  | x :: a', y :: b' => (x =? y)%N && str_eqb a' b'
  | _, _ => false
  end.

Fixpoint dropWhile {A} (p : A -> bool) (l : list A) : list A :=
  match l with
  | [] => []
  | x :: l' => if p x then dropWhile p l' else l
  end.

Fixpoint takeWhile {A} (p : A -> bool) (l : list A) : list A :=
  match l with
  | [] => []
  | x :: l' => if p x then x :: takeWhile p l' else []
  end.

(** [s.trim()] *)
Definition trimStart (s : jsstring) : jsstring := dropWhile isWhiteSpace s.
Definition trimEnd (s : jsstring) : jsstring := rev (dropWhile isWhiteSpace (rev s)).
Definition trim (s : jsstring) : jsstring := trimEnd (trimStart s).

(** [s.startsWith(p)], [s.endsWith(p)] *)
Fixpoint startsWith (p s : jsstring) : bool :=
  match p, s with
  | [], _ => true
  | x :: p', y :: s' => (x =? y)%N && startsWith p' s'
  | _ :: _, [] => false
  end.

Definition endsWith (p s : jsstring) : bool := startsWith (rev p) (rev s).

(** [hay.includes(needle)] *)
Fixpoint includes (needle hay : jsstring) : bool :=
  startsWith needle hay
  || match hay with
     | [] => false
     | _ :: hay' => includes needle hay'
     end.

(** [s.split(sep)] for a one-character separator: [cur] is the field being
    read, in reverse. *)
Fixpoint split_from (sep : jschar) (cur : jsstring) (s : jsstring)
  : list jsstring :=
  match s with
  | [] => [rev cur]
  | c :: s' =>
      if (c =? sep)%N then rev cur :: split_from sep [] s'
      else split_from sep (c :: cur) s'
  end.

Definition split (sep : jschar) (s : jsstring) : list jsstring :=
  split_from sep [] s.

(** [parts.join(sep)] for a one-character separator. *)
Fixpoint join (sep : jschar) (parts : list jsstring) : jsstring :=
  match parts with
  | [] => []
  | [p] => p
  | p :: rest => p ++ sep :: join sep rest
  end.

(** ** Global regular-expression replacement

    A pattern is given by its anchored matcher: on the text that starts at the
    current position it returns the replacement text and the number of code
    units the match consumed (at least one, for every pattern used here).
    [s.replace(/re/g, r)] scans left to right; after a match the scan resumes
    behind it, otherwise the current unit is copied.  [skip] counts the units
    of the last match that are still to be passed over. *)
Definition Matcher := jsstring -> option (jsstring * nat).

Fixpoint replaceAll_from (re : Matcher) (skip : nat) (s : jsstring) : jsstring :=
  match s with
  | [] => []
  | c :: s' =>
      match skip with
      | S k => replaceAll_from re k s'
      | O =>
          match re s with
          | Some (out, len) => out ++ replaceAll_from re (pred len) s'
          | None => c :: replaceAll_from re 0 s'
          end
      end
  end.

Definition replaceAll (re : Matcher) (s : jsstring) : jsstring :=
  replaceAll_from re 0 s.

(** [/\r\n/] replaced by ["\n"] *)
Definition re_crlf : Matcher := fun s =>
  if startsWith [ch_CR; ch_LF] s then Some ([ch_LF], 2) else None.

(** [(.+?)\*\*] anchored at [s]: the shortest non-empty run of characters
    other than line terminators that is followed by two stars. *)
Fixpoint boldGroup (s : jsstring) : option jsstring :=
  match s with
  | [] => None
  | c :: s' =>
      if isLineTerminator c then None
      else if startsWith [ch_star; ch_star] s' then Some [c]
      else option_map (cons c) (boldGroup s')
  end.

(** [/\*\*(.+?)\*\*/] replaced by ["$1"] *)
Definition re_bold : Matcher := fun s =>
  if startsWith [ch_star; ch_star] s then
    match boldGroup (skipn 2 s) with
    | Some g => Some (g, 4 + length g)
    | None => None
    end
  else None.

(** [/`([^`]+)`/] replaced by ["$1"] *)
Definition re_code : Matcher := fun s =>
  match s with
  | c :: s1 =>
      if (c =? ch_backtick)%N then
        let g := takeWhile (fun d => negb (d =? ch_backtick)%N) s1 in
        match g, skipn (length g) s1 with
        | _ :: _, _ :: _ => Some (g, 2 + length g)
        | _, _ => None
        end
      else None
  | [] => None
  end.

(** [/\s+/] replaced by [" "] *)
Definition re_spaces : Matcher := fun s =>
  match takeWhile isWhiteSpace s with
  | [] => None
  | g => Some ([ch_space], length g)
  end.

(** The class [[|\s:\-]] *)
Definition isSeparatorChar (c : jschar) : bool :=
  (c =? ch_pipe)%N || isWhiteSpace c || (c =? ch_colon)%N || (c =? ch_hyphen)%N.

(** [/[|\s:\-]/] replaced by [""] *)
Definition re_sepchar : Matcher := fun s =>
  match s with
  | c :: _ => if isSeparatorChar c then Some ([], 1) else None
  | [] => None
  end.

(* ================================================================== *)
(** * markdownTableRenderer: [renderMessageContentWithTables] *)
(* ================================================================== *)

(** A block appended to the document fragment: a paragraph [<p>] with its
    [textContent], or a wrapped [<table>] with the [textContent] of the
    header cells ([<th>]) and of the cells ([<td>]) of each body row. *)
Inductive Segment :=
| Prose (text : jsstring)
| Table (header : list jsstring) (rows : list (list jsstring)).

Definition stripInlineMarkdown (s : jsstring) : jsstring :=
  replaceAll re_code (replaceAll re_bold s).

Definition splitMarkdownRow (line : jsstring) : list jsstring :=
  let work := trim line in
  let work := if startsWith [ch_pipe] work then skipn 1 work else work in
  let work := if endsWith [ch_pipe] work then removelast work else work in
  map (fun cell => stripInlineMarkdown (trim cell)) (split ch_pipe work).

Definition isTableSeparatorLine (line : jsstring) : bool :=
  let t := trim line in
  if negb (startsWith [ch_pipe] t) then false
  else
    let stripped := replaceAll re_sepchar t in
    (length stripped =? 0) && includes [ch_hyphen] t.

(** [lines[i].trim() === ""] *)
Definition isBlank (line : jsstring) : bool :=
  match trim line with [] => true | _ => false end.

(** The test of lines 33-37 and 86-90, on the lines from index [i] on:
    [lines[i].trim().startsWith("|") && i + 1 < lines.length &&
     isTableSeparatorLine(lines[i + 1])]. *)
Definition isTableStart (lines : list jsstring) : bool :=
  match lines with
  | line :: next :: _ =>
      startsWith [ch_pipe] (trim line) && isTableSeparatorLine next
  | _ => false
  end.

(** The body-row loop (lines 55-70): the rows read and the lines left. *)
Fixpoint tableRows (lines : list jsstring)
  : list (list jsstring) * list jsstring :=
  match lines with
  | [] => ([], [])
  | rowLine :: rest =>
      let trimmed := trim rowLine in
      if negb (startsWith [ch_pipe] trimmed)
         || isTableSeparatorLine rowLine
         || str_eqb trimmed []
      then ([], lines)
      else
        let (rows, rest') := tableRows rest in
        (splitMarkdownRow rowLine :: rows, rest')
  end.

(** The paragraph loop (lines 84-97): [normalLines] and the lines left. *)
Fixpoint normalLinesLoop (normalLines : list jsstring) (lines : list jsstring)
  : list jsstring * list jsstring :=
  match lines with
  | [] => (normalLines, [])
  | line :: rest =>
      if isTableStart lines then (normalLines, lines)
      else if isBlank line && (0 <? length normalLines) then (normalLines, lines)
      else normalLinesLoop (normalLines ++ [line]) rest
  end.

(** The outer loop (lines 30-108) on the lines from index [i] on.  Every
    iteration consumes at least one line; [fuel] bounds the number of
    iterations and [None] means that it ran out. *)
Fixpoint mainLoop (fuel : nat) (lines : list jsstring) : option (list Segment) :=
  match lines with
  | [] => Some []
  | line :: _ =>
      match fuel with
      | O => None
      | S fuel' =>
          if isTableStart lines then
            let headerCells := splitMarkdownRow line in
            let (rows, rest) := tableRows (skipn 2 lines) in
            option_map (cons (Table headerCells rows)) (mainLoop fuel' rest)
          else
            let (normalLines, rest) := normalLinesLoop [] lines in
            let p := if 0 <? length normalLines
                     then [Prose (stripInlineMarkdown (join ch_LF normalLines))]
                     else [] in
            option_map (app p) (mainLoop fuel' (dropWhile isBlank rest))
      end
  end.

Definition splitLines (raw : jsstring) : list jsstring :=
  split ch_LF (replaceAll re_crlf raw).

Definition renderMessageContentWithTables (raw : jsstring) : option (list Segment) :=
  let lines := splitLines raw in
  mainLoop (length lines) lines.

(** DOM [textContent] of the container after rendering: the text of all
    paragraphs and cells, in document order. *)
Definition segmentText (seg : Segment) : jsstring :=
  match seg with
  | Prose text => text
  | Table header rows => concat header ++ concat (map (@concat jschar) rows)
  end.

Definition textContent (segs : list Segment) : jsstring :=
  concat (map segmentText segs).


(* ================================================================== *)
(** * main.ts: data *)
(* ================================================================== *)

Inductive Role := user | assistant.

Record Message := mkMessage {
  role : Role;
  content : jsstring;
  msgCreatedAt : Z
}.

Record ChatSession := mkSession {
  id : jsstring;
  title : jsstring;
  messages : list Message;
  createdAt : Z;
  updatedAt : Z
}.

Record Settings := mkSettings {
  apiBaseUrl : jsstring;
  modelId : jsstring;
  systemPrompt : jsstring;
  temperature : float;
  maxTokens : option float
}.

(** [Partial<Settings>]: a field is [None] when the key is absent. *)
Record PartialSettings := mkPartial {
  p_apiBaseUrl : option jsstring;
  p_modelId : option jsstring;
  p_systemPrompt : option jsstring;
  p_temperature : option float;
  p_maxTokens : option (option float)
}.

(** What [localStorage.getItem(key)] followed by [JSON.parse] gives: no
    (or an empty) item, a text on which [JSON.parse] throws, or the parsed
    value, of the type the source casts it to. *)
Inductive Stored (A : Type) :=
| Absent
| Corrupt
| Parsed (v : A).
Arguments Absent {A}.
Arguments Corrupt {A}.

(** Completion of a call: normal, or an exception with its message. *)
Inductive Completion (A : Type) :=
| Normal (v : A)
| Throw (e : jsstring).
Arguments Throw {A} e.

Definition DEFAULT_SETTINGS : Settings := {|
  apiBaseUrl := js "http://localhost:1234/v1";
  modelId := js "mistralai/ministral-3-3b";
  systemPrompt := js "あなたは日本語で丁寧に回答するアシスタントです。";
  temperature := 0.7%float;
  maxTokens := None
|}.

(** The title given to every session the application creates. *)
Definition NEW_CHAT_TITLE : jsstring := js "新しいチャット".

(** The assistant message appended when the request fails. *)
Definition REQUEST_ERROR_MESSAGE : jsstring :=
  js "LM Studio へのリクエストでエラーが発生しました。"
  ++ ch_LF :: js "・LM Studio のサーバーが起動しているか"
  ++ ch_LF :: js "・「CORS を有効にする」が ON か"
  ++ ch_LF :: js "・API ベースURLとモデルIDが正しいか"
  ++ ch_LF :: js "を確認してください。".

(** A session object on the heap: [addr] is its identity.  The array
    [sessions] and the local variable [session] of [handleSend] refer to
    the same objects. *)
Record Obj := mkObj {
  addr : nat;
  val : ChatSession
}.

(** The module-level state. *)
Record Store := mkStore {
  sessions : list Obj;
  currentSessionId : option jsstring;
  isSending : bool;
  nextAddr : nat
}.

Definition initStore : Store := {|
  sessions := [];
  currentSessionId := None;
  isSending := false;
  nextAddr := 0
|}.

(* ================================================================== *)
(** * main.ts: settings *)
(* ================================================================== *)

Definition orDefault {A} (o : option A) (d : A) : A :=
  match o with Some v => v | None => d end.

(** [{ ...DEFAULT_SETTINGS, ...parsed }] *)
Definition spreadSettings (parsed : PartialSettings) : Settings := {|
  apiBaseUrl := orDefault (p_apiBaseUrl parsed) (apiBaseUrl DEFAULT_SETTINGS);
  modelId := orDefault (p_modelId parsed) (modelId DEFAULT_SETTINGS);
  systemPrompt := orDefault (p_systemPrompt parsed) (systemPrompt DEFAULT_SETTINGS);
  temperature := orDefault (p_temperature parsed) (temperature DEFAULT_SETTINGS);
  maxTokens := orDefault (p_maxTokens parsed) (maxTokens DEFAULT_SETTINGS)
|}.

Definition loadSettings (stored : Stored PartialSettings) : Settings :=
  let settings :=
    match stored with
    | Parsed parsed => spreadSettings parsed
    | Absent => DEFAULT_SETTINGS
    | Corrupt => DEFAULT_SETTINGS
    end in
  {| apiBaseUrl := apiBaseUrl settings;
     modelId := modelId settings;
     systemPrompt := systemPrompt settings;
     temperature := temperature DEFAULT_SETTINGS;
     maxTokens := maxTokens DEFAULT_SETTINGS |}.

(** [saveSettings] writes [JSON.stringify(settings)]; reading the item back
    gives an object with all five keys. *)
Definition saveSettings (settings : Settings) : Stored PartialSettings :=
  Parsed {| p_apiBaseUrl := Some (apiBaseUrl settings);
            p_modelId := Some (modelId settings);
            p_systemPrompt := Some (systemPrompt settings);
            p_temperature := Some (temperature settings);
            p_maxTokens := Some (maxTokens settings) |}.

(* ================================================================== *)
(** * main.ts: sessions *)
(* ================================================================== *)

(** [arr.sort(cmp)]: a stable sort (ECMAScript 2019); an element goes before
    the elements after it for which [cmp] is not positive. *)
Fixpoint sort_insert {A} (cmp : A -> A -> Z) (x : A) (l : list A) : list A :=
  match l with
  | [] => [x]
  | y :: l' => if (cmp x y <=? 0)%Z then x :: l else y :: sort_insert cmp x l'
  end.

Fixpoint array_sort {A} (cmp : A -> A -> Z) (l : list A) : list A :=
  match l with
  | [] => []
  | x :: l' => sort_insert cmp x (array_sort cmp l')
  end.

(** [(a, b) => b.updatedAt - a.updatedAt] *)
Definition byRecency (a b : Obj) : Z :=
  (updatedAt (val b) - updatedAt (val a))%Z.

(** [arr.findIndex(p)]; [None] stands for [-1]. *)
Fixpoint findIndex {A} (p : A -> bool) (l : list A) : option nat :=
  match l with
  | [] => None
  | x :: l' => if p x then Some 0 else option_map S (findIndex p l')
  end.

(** [arr.splice(idx, 1)] *)
Definition splice1 {A} (idx : nat) (l : list A) : list A :=
  firstn idx l ++ skipn (S idx) l.

(** The template literal [`${now}`]. *)
Definition numberToString (n : Z) : jsstring :=
  js (NilZero.string_of_int (Z.to_int n)).

(** [createNewSession(title)]; [now] is the value of [Date.now()] and [rnd]
    the text [Math.random().toString(36).slice(2, 8)]. *)
Definition createNewSession (title0 : jsstring) (now : Z) (rnd : jsstring)
    (st : Store) : Obj * Store :=
  let session := {|
    id := js "session_" ++ numberToString now ++ js "_" ++ rnd;
    title := title0;
    messages := [];
    createdAt := now;
    updatedAt := now
  |} in
  let o := mkObj (nextAddr st) session in
  (o, {| sessions := o :: sessions st;
         currentSessionId := currentSessionId st;
         isSending := isSending st;
         nextAddr := S (nextAddr st) |}).

Definition setSessions (l : list Obj) (st : Store) : Store :=
  {| sessions := l;
     currentSessionId := currentSessionId st;
     isSending := isSending st;
     nextAddr := nextAddr st |}.

Definition setCurrent (c : option jsstring) (st : Store) : Store :=
  {| sessions := sessions st;
     currentSessionId := c;
     isSending := isSending st;
     nextAddr := nextAddr st |}.

(** The objects [JSON.parse] allocates for the elements of the array. *)
Fixpoint allocate (a : nat) (l : list ChatSession) : list Obj :=
  match l with
  | [] => []
  | s :: l' => mkObj a s :: allocate (S a) l'
  end.

(** [sessions[0].id] after [sessions.sort(...)], the array being non-empty. *)
Definition openMostRecent (st : Store) : Store :=
  let sorted := array_sort byRecency (sessions st) in
  match sorted with
  | first :: _ => setCurrent (Some (id (val first))) (setSessions sorted st)
  | [] => setSessions sorted st
  end.

Definition loadSessions (stored : Stored (list ChatSession)) (now : Z)
    (rnd : jsstring) (st : Store) : Store :=
  let st1 :=
    match stored with
    | Absent => st
    | Corrupt => setSessions [] st
    | Parsed parsed =>
        {| sessions := allocate (nextAddr st) parsed;
           currentSessionId := currentSessionId st;
           isSending := isSending st;
           nextAddr := nextAddr st + length parsed |}
    end in
  if length (sessions st1) =? 0 then
    let (s, st2) := createNewSession NEW_CHAT_TITLE now rnd st1 in
    setCurrent (Some (id (val s))) st2
  else openMostRecent st1.

(** [currentSessionId === x] *)
Definition isCurrent (st : Store) (x : jsstring) : bool :=
  match currentSessionId st with
  | Some c => str_eqb c x
  | None => false
  end.

Definition deleteSession (id0 : jsstring) (now : Z) (rnd : jsstring)
    (st : Store) : Store :=
  match findIndex (fun s => str_eqb (id (val s)) id0) (sessions st) with
  | None => st
  | Some idx =>
      let st1 := setSessions (splice1 idx (sessions st)) st in
      if length (sessions st1) =? 0 then
        let (s, st2) := createNewSession NEW_CHAT_TITLE now rnd st1 in
        setCurrent (Some (id (val s))) st2
      else if isCurrent st1 id0 then openMostRecent st1
      else st1
  end.

Definition getCurrentSession (st : Store) : option Obj :=
  find (fun s => isCurrent st (id (val s))) (sessions st).

Definition selectSession (id0 : jsstring) (st : Store) : Store :=
  if isCurrent st id0 then st else setCurrent (Some id0) st.

(** The click handler of the sidebar item of the session object [a].  The
    sidebar is rendered again whenever a session is added or removed, so its
    items are the sessions of the array. *)
Definition selectItem (a : nat) (st : Store) : Store :=
  match find (fun s => addr s =? a) (sessions st) with
  | Some session => selectSession (id (val session)) st
  | None => st
  end.

(** The click handler of the new-chat button. *)
Definition newChat (now : Z) (rnd : jsstring) (st : Store) : Store :=
  let (s, st1) := createNewSession NEW_CHAT_TITLE now rnd st in
  setCurrent (Some (id (val s))) st1.

(** The list shown by [renderSidebar]:
    [sessions.slice().sort((a, b) => b.updatedAt - a.updatedAt)]. *)
Definition listByRecency (st : Store) : list Obj :=
  array_sort byRecency (sessions st).

(* ================================================================== *)
(** * main.ts: search *)
(* ================================================================== *)

Section Search.
(** [String.prototype.toLowerCase], whose Unicode case tables are not part
  of the program. *)
Variable toLowerCase : jsstring -> jsstring.

(** The callback of [sessions.filter] in [searchChat]. *)
Definition sessionMatches (q : jsstring) (s : ChatSession) : bool :=
(negb (length (title s) =? 0) && includes q (toLowerCase (title s)))
|| existsb (fun m => includes q (toLowerCase (content m))) (messages s).

(** The array [matched] of [searchChat]; empty when the function returns
  before computing it. *)
Definition searchMatched (keyword : jsstring) (st : Store) : list Obj :=
let q := toLowerCase (trim keyword) in
if length q =? 0 then []
else filter (fun o => sessionMatches q (val o)) (sessions st).

(** [searchChat(keyword)]; [answer] is the number typed at the prompt, if
  the prompt was answered with one. *)
Definition searchChat (keyword : jsstring) (answer : option Z) (st : Store)
: Store :=
match searchMatched keyword st with
| [] => st
| [only] => setCurrent (Some (id (val only))) st
| matched =>
    match answer with
    | None => st
    | Some n =>
        if (n <? 1)%Z || (Z.of_nat (length matched) <? n)%Z then st
        else
          match nth_error matched (Z.to_nat (n - 1)) with
          | Some s => setCurrent (Some (id (val s))) st
          | None => st
          end
    end
end.
End Search.

(** The Basic Latin part of [toLowerCase]. *)
Definition toLowerCaseLatin (s : jsstring) : jsstring :=
  map (fun c => if ((65 <=? c) && (c <=? 90))%N then (c + 32)%N else c) s.

(* ================================================================== *)
(** * main.ts: sending a message *)
(* ================================================================== *)

(** Assignment through the reference [a]. *)
Definition updateObj (a : nat) (f : ChatSession -> ChatSession) (l : list Obj)
  : list Obj :=
  map (fun o => if addr o =? a then mkObj (addr o) (f (val o)) else o) l.

(** [session.messages.push(m); session.updatedAt = m.createdAt] *)
Definition pushMessage (m : Message) (s : ChatSession) : ChatSession :=
  {| id := id s;
     title := title s;
     messages := messages s ++ [m];
     createdAt := createdAt s;
     updatedAt := msgCreatedAt m |}.

(** Lines 617-620: the title of a chat without messages is made from the
    text. *)
Definition deriveTitle (text : jsstring) (s : ChatSession) : ChatSession :=
  if length (messages s) =? 0 then
    let t := firstn 30 (replaceAll re_spaces text) in
    {| id := id s;
       title := match t with [] => NEW_CHAT_TITLE | _ => t end;
       messages := messages s;
       createdAt := createdAt s;
       updatedAt := updatedAt s |}
  else s.

(** Where [handleSend] stands when it gives control back: it has returned
    without doing anything, or it waits for [sendToLmStudio(session)]. *)
Inductive SendState :=
| Ignored
| Awaiting (session : nat).

Definition setSending (b : bool) (st : Store) : Store :=
  {| sessions := sessions st;
     currentSessionId := currentSessionId st;
     isSending := b;
     nextAddr := nextAddr st |}.

(** [handleSend] up to its [await]; [value] is [userInputEl.value] and [now]
    the value of [Date.now()].  The function has no [throw]. *)
Definition handleSend (value : jsstring) (now : Z) (st : Store)
  : Completion (Store * SendState) :=
  if isSending st then Normal (st, Ignored)
  else
    match getCurrentSession st with
    | None => Normal (st, Ignored)
    | Some session =>
        let text := trim value in
        if length text =? 0 then Normal (st, Ignored)
        else
          let m := {| role := user; content := text; msgCreatedAt := now |} in
          let upd := fun s => pushMessage m (deriveTitle text s) in
          Normal (setSending true
                    (setSessions (updateObj (addr session) upd (sessions st)) st),
                  Awaiting (addr session))
    end.

(** [handleSend] from its [await] on: [reply] is the completion of
    [sendToLmStudio(session)] and [t2] the value of [Date.now()]. *)
Definition handleSendResume (session : nat) (reply : Completion jsstring)
    (t2 : Z) (st : Store) : Store :=
  let text :=
    match reply with
    | Normal r => r
    | Throw _ => REQUEST_ERROR_MESSAGE
    end in
  let m := {| role := assistant; content := text; msgCreatedAt := t2 |} in
  setSending false
    (setSessions (updateObj session (pushMessage m) (sessions st)) st).

(** ** Runs of the store *)

Inductive Op :=
| OpLoad (stored : Stored (list ChatSession)) (now : Z) (rnd : jsstring)
| OpCreate (title0 : jsstring) (now : Z) (rnd : jsstring)
| OpNewChat (now : Z) (rnd : jsstring)
| OpDelete (id0 : jsstring) (now : Z) (rnd : jsstring)
| OpSelect (a : nat)
| OpSend (value : jsstring) (now : Z)
| OpReply (session : nat) (reply : Completion jsstring) (t2 : Z).

Definition step (op : Op) (st : Store) : Store :=
  match op with
  | OpLoad stored now rnd => loadSessions stored now rnd st
  | OpCreate title0 now rnd => snd (createNewSession title0 now rnd st)
  | OpNewChat now rnd => newChat now rnd st
  | OpDelete id0 now rnd => deleteSession id0 now rnd st
  | OpSelect a => selectItem a st
  | OpSend value now =>
      match handleSend value now st with
      | Normal (st', _) => st'
      | Throw _ => st
      end
  | OpReply session reply t2 => handleSendResume session reply t2 st
  end.

Fixpoint run (ops : list Op) (st : Store) : Store :=
  match ops with
  | [] => st
  | op :: ops' => run ops' (step op st)
  end.

(** The line feed, for the sample texts. *)
Definition LF : String.string := String (ascii_of_nat 10) EmptyString.

(** The ids of the sessions of the array, in its order. *)
Definition sessionIds (st : Store) : list jsstring :=
  map (fun o => id (val o)) (sessions st).

(* ================================================================== *)
(** * Properties: the notions they are stated with *)
(* ================================================================== *)

(** ** Recency order *)

(** In descending order of [key]. *)
Definition descending {A} (key : A -> Z) (l : list A) : Prop :=
  StronglySorted (fun a b => (key b <= key a)%Z) l.

Definition recencyKey (o : Obj) : Z := updatedAt (val o).

(** ** The current session *)

(** The current id is the id of a session of the array. *)
Definition validCurrent (st : Store) : Prop :=
  exists c, currentSessionId st = Some c /\ In c (sessionIds st).

(** ** The title of a chat *)

(** Collapsing white space as the specification words it: every maximal run
    of white space becomes one space.  [inRun] tells that the character
    before was white space. *)
Fixpoint collapseRuns (inRun : bool) (s : jsstring) : jsstring :=
  match s with
  | [] => []
  | c :: s' =>
      if isWhiteSpace c then
        if inRun then collapseRuns true s' else ch_space :: collapseRuns true s'
      else c :: collapseRuns false s'
  end.

(** ** Time stamps along a run *)

(** The time the operation reads from the clock, if it reads it. *)
Definition opTime (op : Op) : option Z :=
  match op with
  | OpLoad _ now _ => Some now
  | OpCreate _ now _ => Some now
  | OpNewChat now _ => Some now
  | OpDelete _ now _ => Some now
  | OpSelect _ => None
  | OpSend _ now => Some now
  | OpReply _ _ t2 => Some t2
  end.

(** The sessions an operation reads from persistence were last updated after
    their creation and not after [now]. *)
Definition loadedInOrder (now : Z) (op : Op) : bool :=
  match op with
  | OpLoad (Parsed parsed) _ _ =>
      forallb (fun s => (createdAt s <=? updatedAt s)%Z
                        && (updatedAt s <=? now)%Z) parsed
  | _ => true
  end.

(** The clock never goes back along the run, [t] being its last reading
    before the run. *)
Fixpoint chronological (t : Z) (ops : list Op) : bool :=
  match ops with
  | [] => true
  | op :: ops' =>
      match opTime op with
      | Some now => (t <=? now)%Z && loadedInOrder now op && chronological now ops'
      | None => chronological t ops'
      end
  end.

Definition isAppend (op : Op) : bool :=
  match op with
  | OpSend _ _ => true
  | OpReply _ _ _ => true
  | _ => false
  end.

(** Every session was last updated after its creation and not after [t]. *)
Definition timely (t : Z) (l : list Obj) : Prop :=
  Forall (fun o => (createdAt (val o) <= updatedAt (val o) <= t)%Z) l.

(** The same objects, none with an earlier [updatedAt]. *)
Definition notOlder (l l' : list Obj) : Prop :=
  Forall2 (fun o o' => addr o' = addr o
                       /\ (updatedAt (val o) <= updatedAt (val o'))%Z) l l'.

(** ** Search *)

(** [needle] occurs in [hay] as a substring. *)
Definition occursIn (needle hay : jsstring) : Prop :=
  exists pre post, hay = pre ++ needle ++ post.

(** The sessions [searchChat] keeps, as a test on the sessions. *)
Definition keptBySearch (lower : jsstring -> jsstring) (keyword : jsstring)
    (o : Obj) : bool :=
  negb (length (lower (trim keyword)) =? 0)
  && sessionMatches lower (lower (trim keyword)) (val o).

(** ** The scan of the lines *)

(** The blocks produced from a line position on, [lines] being the lines
    from that position to the end. *)
Definition scanFrom (lines : list jsstring) : option (list Segment) :=
  mainLoop (length lines) lines.

(** ** Where a table starts *)




(** ** Plain texts *)





(** ** Sample stores *)

(** The store after the first start of the application at time 1. *)
Definition freshStore : Store := loadSessions Absent 1 (js "k3x9ab") initStore.

(** A store whose current id is the id of no session. *)
Definition strayStore : Store := {|
  sessions := [mkObj 0 {| id := js "session_1_k3x9ab";
                          title := NEW_CHAT_TITLE;
                          messages := [];
                          createdAt := 1;
                          updatedAt := 1 |}];
  currentSessionId := Some (js "session_0_zzzzzz");
  isSending := false;
  nextAddr := 1
|}.

(** The store after two chats, the older of which was written to last:
    the array holds the newer chat first. *)
Definition busyStore : Store :=
  run [OpLoad Absent 1 (js "k3x9ab");
       OpSend (js "chat one") 2;
       OpReply 0 (Normal (js "ok")) 3;
       OpNewChat 4 (js "p0q1rs");
       OpSend (js "chat two") 5;
       OpReply 1 (Normal (js "ok")) 6;
       OpSelect 0;
       OpSend (js "more") 7;
       OpReply 0 (Normal (js "sure")) 8] initStore.

(* ================================================================== *)
(** * Strings: basic facts *)
(* ================================================================== *)

Lemma str_eqb_eq : forall a b, str_eqb a b = true <-> a = b.
Proof.
  induction a as [|x a IH]; destruct b as [|y b]; simpl; split;
    try congruence; try reflexivity.
  - intros H. apply andb_true_iff in H. destruct H as [H1 H2].
    apply N.eqb_eq in H1. apply IH in H2. congruence.
  - intros H. injection H as -> ->. rewrite N.eqb_refl. simpl.
    apply IH. reflexivity.
Qed.

Lemma str_eqb_refl : forall a, str_eqb a a = true.
Proof. intros a. apply str_eqb_eq. reflexivity. Qed.

(* ================================================================== *)
(** * [Array.prototype.sort] with the recency comparator *)
(* ================================================================== *)

Section Sorting.
Variable A : Type.
Variable key : A -> Z.
Variable cmp : A -> A -> Z.
Hypothesis cmp_key : forall a b, cmp a b = (key b - key a)%Z.

Lemma sort_insert_perm : forall x l, Permutation (sort_insert cmp x l) (x :: l).
Proof.
  intros x l. induction l as [|y l IH]; simpl.
  - apply Permutation_refl.
  - destruct (cmp x y <=? 0)%Z.
    + apply Permutation_refl.
    + apply perm_trans with (y :: x :: l).
      * apply perm_skip. exact IH.
      * apply perm_swap.
Qed.

Lemma array_sort_perm : forall l, Permutation (array_sort cmp l) l.
Proof.
  induction l as [|x l IH]; simpl.
  - apply perm_nil.
  - eapply perm_trans; [apply sort_insert_perm|].
    apply perm_skip. exact IH.
Qed.

Lemma sort_insert_descending :
  forall x l, descending key l -> descending key (sort_insert cmp x l).
Proof.
  intros x l Hl. induction Hl as [|y l Hl IH Hy]; simpl.
  - constructor; constructor.
  - destruct (cmp x y <=? 0)%Z eqn:E.
    + apply Z.leb_le in E. rewrite cmp_key in E.
      constructor.
      * constructor; assumption.
      * constructor; [lia|].
        rewrite Forall_forall in *. intros z Hz.
        specialize (Hy z Hz). lia.
    + apply Z.leb_gt in E. rewrite cmp_key in E.
      constructor; [exact IH|].
      apply Forall_forall. intros z Hz.
      apply (Permutation_in _ (sort_insert_perm x l)) in Hz.
      destruct Hz as [<-|Hz]; [lia|].
      rewrite Forall_forall in Hy. apply Hy. exact Hz.
Qed.

Lemma array_sort_descending : forall l, descending key (array_sort cmp l).
Proof.
  induction l as [|x l IH]; simpl.
  - constructor.
  - apply sort_insert_descending. exact IH.
Qed.

(** Stability: the elements with a given key keep their order. *)
Lemma sort_insert_same_key :
  forall t x l,
    filter (fun a => (key a =? t)%Z) (sort_insert cmp x l)
    = filter (fun a => (key a =? t)%Z) (x :: l).
Proof.
  intros t x l. induction l as [|y l IH]; [reflexivity|].
  simpl sort_insert. destruct (cmp x y <=? 0)%Z eqn:E; [reflexivity|].
  apply Z.leb_gt in E. rewrite cmp_key in E.
  cbn [filter] in *. rewrite IH.
  destruct (key x =? t)%Z eqn:Ex; [|reflexivity].
  apply Z.eqb_eq in Ex.
  assert (Ey : (key y =? t)%Z = false) by (apply Z.eqb_neq; lia).
  rewrite Ey. reflexivity.
Qed.

Lemma array_sort_same_key :
  forall t l,
    filter (fun a => (key a =? t)%Z) (array_sort cmp l)
    = filter (fun a => (key a =? t)%Z) l.
Proof.
  intros t l. induction l as [|x l IH]; [reflexivity|].
  simpl array_sort. rewrite sort_insert_same_key.
  cbn [filter]. rewrite IH. reflexivity.
Qed.

(** An array that is already in order is left as it is. *)
Lemma array_sort_descending_id :
  forall l, descending key l -> array_sort cmp l = l.
Proof.
  intros l Hl. induction Hl as [|x l Hl IH Hx]; [reflexivity|].
  simpl. rewrite IH. destruct l as [|y l]; [reflexivity|].
  simpl. apply Forall_inv in Hx.
  assert (E : (cmp x y <=? 0)%Z = true)
    by (apply Z.leb_le; rewrite cmp_key; lia).
  rewrite E. reflexivity.
Qed.

Lemma array_sort_nil_iff : forall l, array_sort cmp l = [] <-> l = [].
Proof.
  intros l. split; intros H.
  - apply Permutation_nil. rewrite <- H. apply array_sort_perm.
  - subst l. reflexivity.
Qed.
End Sorting.

Lemma byRecency_key : forall a b, byRecency a b = (recencyKey b - recencyKey a)%Z.
Proof. reflexivity. Qed.

(* ================================================================== *)
(** * The current session *)
(* ================================================================== *)

Lemma findIndex_split :
  forall A (p : A -> bool) l idx,
    findIndex p l = Some idx ->
    exists l1 x l2,
      l = l1 ++ x :: l2 /\ length l1 = idx /\ p x = true
      /\ splice1 idx l = l1 ++ l2.
Proof.
  intros A p l. induction l as [|a l IH]; simpl; intros idx H; [discriminate|].
  destruct (p a) eqn:Ea.
  - injection H as <-. exists [], a, l. repeat split; assumption.
  - destruct (findIndex p l) as [k|] eqn:Ek; [|discriminate].
    injection H as <-.
    destruct (IH k eq_refl) as (l1 & x & l2 & -> & <- & Hx & Hs).
    exists (a :: l1), x, l2. repeat split; try assumption.
    unfold splice1 in *. simpl. f_equal. exact Hs.
Qed.

Lemma validCurrent_nonempty : forall st, validCurrent st -> sessions st <> [].
Proof.
  intros st (c & _ & Hin) E. unfold sessionIds in Hin.
  rewrite E in Hin. exact Hin.
Qed.

Lemma validCurrent_session :
  forall st, validCurrent st ->
    exists o, In o (sessions st) /\ currentSessionId st = Some (id (val o)).
Proof.
  intros st (c & Hc & Hin). unfold sessionIds in Hin.
  apply in_map_iff in Hin. destruct Hin as (o & <- & Ho).
  exists o. split; assumption.
Qed.

Lemma openMostRecent_valid :
  forall st, sessions st <> [] -> validCurrent (openMostRecent st).
Proof.
  intros st Hne. unfold openMostRecent.
  destruct (array_sort byRecency (sessions st)) as [|first rest] eqn:E.
  - apply array_sort_nil_iff in E.
    contradiction.
  - exists (id (val first)). split; [reflexivity|].
    unfold sessionIds. simpl. left. reflexivity.
Qed.

Lemma createAndSelect_valid :
  forall title0 now rnd st,
    validCurrent
      (let (s, st1) := createNewSession title0 now rnd st in
       setCurrent (Some (id (val s))) st1).
Proof.
  intros. simpl. eexists. split; [reflexivity|].
  unfold sessionIds. simpl. left. reflexivity.
Qed.

Lemma loadSessions_valid :
  forall stored now rnd st, validCurrent (loadSessions stored now rnd st).
Proof.
  intros stored now rnd st. unfold loadSessions.
  match goal with |- context [length (sessions ?x) =? 0] => set (st1 := x) end.
  destruct (length (sessions st1) =? 0) eqn:E.
  - apply createAndSelect_valid.
  - apply openMostRecent_valid. intros H. rewrite H in E. discriminate.
Qed.

Lemma createNewSession_valid :
  forall title0 now rnd st,
    validCurrent st -> validCurrent (snd (createNewSession title0 now rnd st)).
Proof.
  intros title0 now rnd st (c & Hc & Hin). exists c. split; [exact Hc|].
  unfold sessionIds. simpl. right. exact Hin.
Qed.

Lemma deleteSession_valid :
  forall id0 now rnd st,
    validCurrent st -> validCurrent (deleteSession id0 now rnd st).
Proof.
  intros id0 now rnd st Hv. unfold deleteSession.
  destruct (findIndex _ (sessions st)) as [idx|] eqn:Ei; [|exact Hv].
  destruct (findIndex_split _ _ Ei) as (l1 & x & l2 & El & _ & Hx & Hs).
  set (st1 := setSessions _ st).
  destruct (length (sessions st1) =? 0) eqn:E0.
  - apply createAndSelect_valid.
  - destruct (isCurrent st1 id0) eqn:Ec.
    + apply openMostRecent_valid. intros H. rewrite H in E0. discriminate.
    + destruct Hv as (c & Hc & Hin). exists c. split; [exact Hc|].
      unfold sessionIds in *. simpl. rewrite Hs. rewrite El in Hin.
      rewrite map_app in *. simpl in Hin.
      apply in_app_or in Hin. apply in_or_app.
      destruct Hin as [Hin|[Hin|Hin]]; [left; exact Hin| |right; exact Hin].
      exfalso. apply str_eqb_eq in Hx.
      unfold isCurrent in Ec. simpl in Ec. rewrite Hc in Ec.
      rewrite <- Hin, Hx, str_eqb_refl in Ec. discriminate.
Qed.

Lemma selectSession_valid :
  forall id0 st,
    validCurrent st -> In id0 (sessionIds st) ->
    validCurrent (selectSession id0 st).
Proof.
  intros id0 st Hv Hin. unfold selectSession.
  destruct (isCurrent st id0); [exact Hv|].
  exists id0. split; [reflexivity|exact Hin].
Qed.

Lemma selectItem_valid :
  forall a st, validCurrent st -> validCurrent (selectItem a st).
Proof.
  intros a st Hv. unfold selectItem.
  destruct (find _ (sessions st)) as [o|] eqn:E; [|exact Hv].
  apply selectSession_valid; [exact Hv|].
  apply find_some in E. destruct E as [E _].
  unfold sessionIds. apply in_map_iff. exists o. split; [reflexivity|exact E].
Qed.

Lemma updateObj_ids :
  forall a f l,
    (forall s, id (f s) = id s) ->
    map (fun o => id (val o)) (updateObj a f l) = map (fun o => id (val o)) l.
Proof.
  intros a f l Hf. unfold updateObj. rewrite map_map.
  apply map_ext. intros o. destruct (addr o =? a); simpl; [apply Hf|reflexivity].
Qed.

Lemma pushMessage_id : forall m s, id (pushMessage m s) = id s.
Proof. reflexivity. Qed.

Lemma deriveTitle_id : forall text s, id (deriveTitle text s) = id s.
Proof.
  intros text s. unfold deriveTitle.
  destruct (length (messages s) =? 0); reflexivity.
Qed.

Lemma handleSend_normal :
  forall value now st, exists st' w, handleSend value now st = Normal (st', w).
Proof.
  intros value now st. unfold handleSend.
  destruct (isSending st); [eauto|].
  destruct (getCurrentSession st); [|eauto].
  destruct (length (trim value) =? 0); eauto.
Qed.

Lemma handleSend_ids :
  forall value now st st' w,
    handleSend value now st = Normal (st', w) ->
    sessionIds st' = sessionIds st /\ currentSessionId st' = currentSessionId st.
Proof.
  intros value now st st' w. unfold handleSend.
  destruct (isSending st); [intros [= <- _]; split; reflexivity|].
  destruct (getCurrentSession st) as [session|];
    [|intros [= <- _]; split; reflexivity].
  destruct (length (trim value) =? 0); intros [= <- _];
    [split; reflexivity|].
  split; [|reflexivity].
  unfold sessionIds. simpl. apply updateObj_ids.
  intros s. rewrite pushMessage_id. apply deriveTitle_id.
Qed.

Lemma handleSendResume_ids :
  forall session reply t2 st,
    sessionIds (handleSendResume session reply t2 st) = sessionIds st
    /\ currentSessionId (handleSendResume session reply t2 st)
       = currentSessionId st.
Proof.
  intros. split; [|reflexivity].
  unfold sessionIds. simpl. apply updateObj_ids. intros s. reflexivity.
Qed.

Lemma step_valid : forall op st, validCurrent st -> validCurrent (step op st).
Proof.
  intros op st Hv. destruct op; simpl.
  - apply loadSessions_valid.
  - apply createNewSession_valid. exact Hv.
  - apply createAndSelect_valid.
  - apply deleteSession_valid. exact Hv.
  - apply selectItem_valid. exact Hv.
  - destruct (handleSend_normal value now st) as (st' & w & E). rewrite E.
    apply handleSend_ids in E. destruct E as [E1 E2].
    destruct Hv as (c & Hc & Hin). exists c.
    rewrite E1, E2. split; assumption.
  - destruct (handleSendResume_ids session reply t2 st) as [E1 E2].
    destruct Hv as (c & Hc & Hin). exists c.
    rewrite E1, E2. split; assumption.
Qed.

Lemma run_valid : forall ops st, validCurrent st -> validCurrent (run ops st).
Proof.
  induction ops as [|op ops IH]; simpl; intros st Hv; [exact Hv|].
  apply IH, step_valid, Hv.
Qed.

(* ================================================================== *)
(** * Sending: the title and the time stamps *)
(* ================================================================== *)

Lemma replaceAll_from_spaces :
  forall s,
    replaceAll_from re_spaces 0 s = collapseRuns false s
    /\ replaceAll_from re_spaces (length (takeWhile isWhiteSpace s)) s
       = collapseRuns true s.
Proof.
  induction s as [|c s [IH0 IH1]]; [split; reflexivity|].
  split.
  - cbn [replaceAll_from collapseRuns]. unfold re_spaces. cbn [takeWhile].
    destruct (isWhiteSpace c) eqn:E.
    + cbn [length pred app]. f_equal. exact IH1.
    + f_equal. exact IH0.
  - cbn [takeWhile collapseRuns]. destruct (isWhiteSpace c) eqn:E.
    + cbn [length replaceAll_from]. exact IH1.
    + cbn [length replaceAll_from]. unfold re_spaces at 1. cbn [takeWhile].
      rewrite E. f_equal. exact IH0.
Qed.

Lemma replaceAll_spaces_collapse :
  forall s, replaceAll re_spaces s = collapseRuns false s.
Proof. intros s. apply replaceAll_from_spaces. Qed.

Lemma collapseRuns_nonempty :
  forall s, s <> [] -> collapseRuns false s <> [].
Proof.
  intros [|c s] H; [congruence|]. simpl.
  destruct (isWhiteSpace c); discriminate.
Qed.

Lemma deriveTitle_first :
  forall text s,
    messages s = [] -> text <> [] ->
    deriveTitle text s
    = {| id := id s;
         title := firstn 30 (collapseRuns false text);
         messages := [];
         createdAt := createdAt s;
         updatedAt := updatedAt s |}.
Proof.
  intros text s Hm Ht. unfold deriveTitle. rewrite Hm.
  cbn [length Nat.eqb]. rewrite replaceAll_spaces_collapse.
  pose proof (collapseRuns_nonempty Ht) as Hne.
  destruct (collapseRuns false text) as [|c l]; [congruence|].
  change 30 with (S 29). rewrite firstn_cons. reflexivity.
Qed.

Lemma find_map_preserve :
  forall A (p : A -> bool) (g : A -> A) l,
    (forall x, p (g x) = p x) ->
    find p (map g l) = option_map g (find p l).
Proof.
  intros A p g l Hp. induction l as [|x l IH]; [reflexivity|].
  simpl. rewrite Hp. destruct (p x); [reflexivity|exact IH].
Qed.

Lemma find_none_iff :
  forall A (p : A -> bool) l,
    find p l = None <-> (forall x, In x l -> p x = false).
Proof.
  intros A p l. split.
  - apply find_none.
  - induction l as [|x l IH]; [reflexivity|].
    intros H. simpl. rewrite (H x (or_introl eq_refl)).
    apply IH. intros y Hy. apply H. right. exact Hy.
Qed.

Lemma getCurrentSession_none :
  forall st,
    (forall c, currentSessionId st = Some c -> ~ In c (sessionIds st)) ->
    getCurrentSession st = None.
Proof.
  intros st H. unfold getCurrentSession. apply find_none_iff.
  intros o Ho. unfold isCurrent.
  destruct (currentSessionId st) as [c|] eqn:Ec; [|reflexivity].
  destruct (str_eqb c (id (val o))) eqn:E; [|reflexivity].
  apply str_eqb_eq in E. exfalso. apply (H c eq_refl).
  unfold sessionIds. apply in_map_iff. exists o. split; [congruence|exact Ho].
Qed.

(** What [handleSend] does when it goes through: the text is appended to the
    current session, whose title is made first. *)
Lemma handleSend_appends :
  forall value now st session,
    isSending st = false ->
    getCurrentSession st = Some session ->
    trim value <> [] ->
    let m := {| role := user; content := trim value; msgCreatedAt := now |} in
    let upd := fun s => pushMessage m (deriveTitle (trim value) s) in
    handleSend value now st
    = Normal (setSending true
                (setSessions (updateObj (addr session) upd (sessions st)) st),
              Awaiting (addr session))
    /\ getCurrentSession
         (setSending true
            (setSessions (updateObj (addr session) upd (sessions st)) st))
       = Some (mkObj (addr session) (upd (val session))).
Proof.
  intros value now st session Hs Hc Ht m upd. split.
  - unfold handleSend. rewrite Hs, Hc.
    destruct (trim value) as [|c t] eqn:E; [congruence|]. reflexivity.
  - unfold getCurrentSession in *. simpl. unfold updateObj.
    rewrite find_map_preserve.
    + change (fun s => isCurrent _ (id (val s)))
        with (fun s => isCurrent st (id (val s))).
      rewrite Hc. simpl. rewrite Nat.eqb_refl. reflexivity.
    + intros o. unfold isCurrent. simpl.
      destruct (addr o =? addr session); [|reflexivity].
      simpl. unfold upd. simpl. rewrite deriveTitle_id. reflexivity.
Qed.

(** ** Time stamps along a run *)

Lemma handleSend_cases :
  forall value now st,
    handleSend value now st = Normal (st, Ignored)
    \/ exists session,
         let m := {| role := user; content := trim value; msgCreatedAt := now |} in
         let upd := fun s => pushMessage m (deriveTitle (trim value) s) in
         handleSend value now st
         = Normal (setSending true
                     (setSessions (updateObj (addr session) upd (sessions st)) st),
                   Awaiting (addr session))
         /\ isSending st = false
         /\ getCurrentSession st = Some session
         /\ trim value <> [].
Proof.
  intros value now st.
  destruct (isSending st) eqn:Es.
  { left. unfold handleSend. rewrite Es. reflexivity. }
  destruct (getCurrentSession st) as [session|] eqn:Ec.
  2:{ left. unfold handleSend. rewrite Es, Ec. reflexivity. }
  destruct (trim value) as [|c t] eqn:Et.
  { left. unfold handleSend. rewrite Es, Ec, Et. reflexivity. }
  right. exists session. rewrite <- Et.
  assert (Hne : trim value <> []) by (rewrite Et; discriminate).
  destruct (handleSend_appends value now st Es Ec Hne) as [H _].
  repeat split; assumption.
Qed.

Lemma updateObj_target :
  forall a f l o,
    In o (updateObj a f l) -> addr o = a ->
    exists o0, In o0 l /\ addr o0 = a /\ val o = f (val o0).
Proof.
  intros a f l o Hin Ha. unfold updateObj in Hin.
  apply in_map_iff in Hin. destruct Hin as (o0 & E & Ho0).
  destruct (addr o0 =? a) eqn:Ea.
  - apply Nat.eqb_eq in Ea. exists o0. subst o. repeat split; assumption.
  - subst o. apply Nat.eqb_neq in Ea. contradiction.
Qed.

Lemma timely_mono :
  forall t t' l, timely t l -> (t <= t')%Z -> timely t' l.
Proof.
  intros t t' l H Hle. unfold timely in *.
  eapply Forall_impl; [|exact H]. simpl. intros o Ho. lia.
Qed.

Lemma timely_perm :
  forall t l l', Permutation l l' -> timely t l -> timely t l'.
Proof.
  intros t l l' Hp H. unfold timely in *.
  eapply Permutation_Forall; eassumption.
Qed.

Lemma timely_updateObj :
  forall t now a f l,
    timely t l -> (t <= now)%Z ->
    (forall s, createdAt (f s) = createdAt s /\ updatedAt (f s) = now) ->
    timely now (updateObj a f l).
Proof.
  intros t now a f l H Hle Hf. unfold timely, updateObj in *.
  apply Forall_map. eapply Forall_impl; [|exact H].
  simpl. intros o Ho. destruct (addr o =? a); simpl.
  - destruct (Hf (val o)) as [-> ->]. lia.
  - lia.
Qed.

Lemma timely_allocate :
  forall now l a,
    forallb (fun s => (createdAt s <=? updatedAt s)%Z
                      && (updatedAt s <=? now)%Z) l = true ->
    timely now (allocate a l).
Proof.
  intros now l. induction l as [|s l IH]; simpl; intros a H.
  - constructor.
  - apply andb_true_iff in H. destruct H as [H1 H2].
    apply andb_true_iff in H1. destruct H1 as [H3 H4].
    apply Z.leb_le in H3, H4.
    constructor; [simpl; lia|]. apply IH. exact H2.
Qed.

Lemma timely_openMostRecent :
  forall t st, timely t (sessions st) -> timely t (sessions (openMostRecent st)).
Proof.
  intros t st H. unfold openMostRecent.
  assert (Hs : timely t (array_sort byRecency (sessions st))).
  { eapply timely_perm; [|exact H].
    apply Permutation_sym, array_sort_perm. }
  destruct (array_sort byRecency (sessions st)); exact Hs.
Qed.

Lemma timely_created :
  forall t now title0 rnd st,
    timely t (sessions st) -> (t <= now)%Z ->
    timely now (sessions (snd (createNewSession title0 now rnd st))).
Proof.
  intros t now title0 rnd st H Hle. simpl.
  constructor; [simpl; lia|]. eapply timely_mono; eassumption.
Qed.

Lemma timely_pushed :
  forall m text s,
    createdAt (pushMessage m (deriveTitle text s)) = createdAt s
    /\ updatedAt (pushMessage m (deriveTitle text s)) = msgCreatedAt m.
Proof.
  intros m text s. unfold deriveTitle.
  destruct (length (messages s) =? 0); split; reflexivity.
Qed.

Lemma step_timely :
  forall op t st,
    timely t (sessions st) ->
    match opTime op with
    | Some now =>
        (t <= now)%Z -> loadedInOrder now op = true ->
        timely now (sessions (step op st))
    | None => timely t (sessions (step op st))
    end.
Proof.
  intros op t st H. destruct op; simpl.
  - (* load *)
    intros Hle Hl. unfold loadSessions.
    match goal with |- context [length (sessions ?x) =? 0] => set (st1 := x) end.
    assert (H1 : timely now (sessions st1)).
    { subst st1. destruct stored as [| |parsed]; simpl.
      - eapply timely_mono; eassumption.
      - constructor.
      - apply timely_allocate. exact Hl. }
    destruct (length (sessions st1) =? 0).
    + apply (timely_created (t:=now) NEW_CHAT_TITLE rnd st1 H1). lia.
    + apply timely_openMostRecent. exact H1.
  - intros Hle _. apply (timely_created title0 rnd st H Hle).
  - intros Hle _. apply (timely_created NEW_CHAT_TITLE rnd st H Hle).
  - (* delete *)
    intros Hle _. unfold deleteSession.
    destruct (findIndex _ (sessions st)) as [idx|] eqn:Ei.
    2:{ eapply timely_mono; eassumption. }
    destruct (findIndex_split _ _ Ei) as (l1 & x & l2 & El & _ & _ & Hs).
    set (st1 := setSessions _ st).
    assert (H1 : timely now (sessions st1)).
    { subst st1. simpl. rewrite Hs. unfold timely in *. rewrite El in H.
      apply Forall_app in H. destruct H as [Ha Hb].
      apply Forall_inv_tail in Hb.
      apply Forall_app. split;
        (eapply Forall_impl; [|eassumption]; simpl; intros; lia). }
    destruct (length (sessions st1) =? 0).
    + apply (timely_created (t:=now) NEW_CHAT_TITLE rnd st1 H1). lia.
    + destruct (isCurrent st1 id0); [|exact H1].
      apply timely_openMostRecent. exact H1.
  - (* select *)
    unfold selectItem. destruct (find _ (sessions st)); [|exact H].
    unfold selectSession. destruct (isCurrent st _); exact H.
  - (* send *)
    intros Hle _.
    destruct (handleSend_cases value now st) as [E|(session & E & _)];
      cbv zeta in E; rewrite E.
    + eapply timely_mono; eassumption.
    + simpl. eapply timely_updateObj; [exact H|exact Hle|].
      intros s. apply timely_pushed.
  - (* reply *)
    intros Hle _. simpl.
    eapply timely_updateObj; [exact H|exact Hle|].
    intros s. split; reflexivity.
Qed.

Lemma run_timely :
  forall ops t st,
    timely t (sessions st) -> chronological t ops = true ->
    exists t', timely t' (sessions (run ops st)).
Proof.
  induction ops as [|op ops IH]; simpl; intros t st H Hc.
  - exists t. exact H.
  - pose proof (step_timely op st H) as Hs.
    destruct (opTime op) as [now|].
    + apply andb_true_iff in Hc. destruct Hc as [Hc Hc3].
      apply andb_true_iff in Hc. destruct Hc as [Hc1 Hc2].
      apply Z.leb_le in Hc1.
      apply (IH now). * apply Hs; assumption. * exact Hc3.
    + apply (IH t); assumption.
Qed.

Lemma notOlder_refl : forall l, notOlder l l.
Proof.
  induction l as [|o l IH]; constructor; [split; [reflexivity|lia]|exact IH].
Qed.

Lemma notOlder_trans :
  forall l1 l2 l3, notOlder l1 l2 -> notOlder l2 l3 -> notOlder l1 l3.
Proof.
  intros l1 l2 l3 H12. revert l3.
  induction H12 as [|a b l1 l2 [Hab1 Hab2] _ IH]; intros l3 H23.
  - inversion H23. constructor.
  - inversion H23 as [|b' c l2' l3' [Hbc1 Hbc2] Hrest]; subst.
    constructor; [split; [congruence|lia]|]. apply IH. exact Hrest.
Qed.

Lemma notOlder_updateObj :
  forall t now a f l,
    timely t l -> (t <= now)%Z ->
    (forall s, updatedAt (f s) = now) ->
    notOlder l (updateObj a f l).
Proof.
  intros t now a f l H Hle Hf. unfold updateObj.
  induction H as [|o l Ho _ IH]; simpl; constructor; [|exact IH].
  destruct (addr o =? a); simpl; split; try reflexivity; try lia.
  rewrite Hf. lia.
Qed.

Lemma appends_notOlder :
  forall ops t st,
    timely t (sessions st) -> chronological t ops = true ->
    forallb isAppend ops = true ->
    notOlder (sessions st) (sessions (run ops st)).
Proof.
  induction ops as [|op ops IH]; simpl; intros t st H Hc Ha.
  - apply notOlder_refl.
  - apply andb_true_iff in Ha. destruct Ha as [Ha1 Ha2].
    pose proof (step_timely op st H) as Hs.
    destruct op; try discriminate Ha1; simpl in Hc, Hs.
    + apply andb_true_iff in Hc. destruct Hc as [Hc Hc3].
      rewrite andb_true_r in Hc. apply Z.leb_le in Hc.
      eapply notOlder_trans; [|apply (IH now); [apply Hs; auto|exact Hc3|exact Ha2]].
      simpl.
      destruct (handleSend_cases value now st) as [E|(session & E & _)];
        cbv zeta in E; rewrite E.
      * apply notOlder_refl.
      * simpl. apply (notOlder_updateObj (t:=t) (now:=now)); [exact H|exact Hc|].
        intros s. apply timely_pushed.
    + apply andb_true_iff in Hc. destruct Hc as [Hc Hc3].
      rewrite andb_true_r in Hc. apply Z.leb_le in Hc.
      eapply notOlder_trans; [|apply (IH t2); [apply Hs; auto|exact Hc3|exact Ha2]].
      simpl. apply (notOlder_updateObj (t:=t) (now:=t2)); [exact H|exact Hc|].
      intros s. reflexivity.
Qed.

(* ================================================================== *)
(** * Search *)
(* ================================================================== *)

Lemma startsWith_prefix :
  forall p s, startsWith p s = true <-> exists rest, s = p ++ rest.
Proof.
  induction p as [|x p IH]; intros s.
  - split; [intros _; exists s; reflexivity|reflexivity].
  - destruct s as [|y s]; simpl.
    + split; [discriminate|intros [rest H]; discriminate H].
    + rewrite andb_true_iff, N.eqb_eq, IH. split.
      * intros [-> [rest ->]]. exists rest. reflexivity.
      * intros [rest H]. injection H as -> ->. split; [reflexivity|].
        exists rest. reflexivity.
Qed.

Lemma includes_occursIn :
  forall needle hay, includes needle hay = true <-> occursIn needle hay.
Proof.
  intros needle hay. unfold occursIn.
  induction hay as [|c hay IH].
  - cbn [includes]. rewrite orb_false_r, startsWith_prefix. split.
    + intros [rest H]. exists [], rest. exact H.
    + intros (pre & post & H). destruct pre; [|discriminate H].
      exists post. exact H.
  - cbn [includes]. rewrite orb_true_iff, startsWith_prefix, IH. split.
    + intros [[rest H]|(pre & post & H)].
      * exists [], rest. exact H.
      * exists (c :: pre), post. rewrite H. reflexivity.
    + intros (pre & post & H). destruct pre as [|c' pre].
      * left. exists post. exact H.
      * right. injection H as _ H. exists pre, post. exact H.
Qed.

Lemma occursIn_nil_r : forall needle, occursIn needle [] -> needle = [].
Proof.
  intros needle (pre & post & H).
  destruct pre; [|discriminate H]. destruct needle; [reflexivity|discriminate H].
Qed.

Lemma searchMatched_filter :
  forall lower keyword st,
    searchMatched lower keyword st
    = filter (keptBySearch lower keyword) (sessions st).
Proof.
  intros lower keyword st. unfold searchMatched, keptBySearch.
  destruct (length (lower (trim keyword)) =? 0); simpl.
  - induction (sessions st) as [|o l IH]; [reflexivity|exact IH].
  - reflexivity.
Qed.

Lemma sessionMatches_occursIn :
  forall lower q s,
    lower [] = [] -> q <> [] ->
    (sessionMatches lower q s = true <->
     occursIn q (lower (title s))
     \/ exists m, In m (messages s) /\ occursIn q (lower (content m))).
Proof.
  intros lower q s Hnil Hq. unfold sessionMatches.
  rewrite orb_true_iff, andb_true_iff, existsb_exists, includes_occursIn.
  split.
  - intros [[_ H]|(m & Hm & H)]; [left; exact H|right].
    exists m. split; [exact Hm|]. apply includes_occursIn. exact H.
  - intros [H|(m & Hm & H)].
    + left. split; [|exact H].
      destruct (title s) as [|c t]; [|reflexivity].
      rewrite Hnil in H. apply occursIn_nil_r in H. contradiction.
    + right. exists m. split; [exact Hm|]. apply includes_occursIn. exact H.
Qed.

(* ================================================================== *)
(** * The renderer: the scan of the lines *)
(* ================================================================== *)

Lemma dropWhile_length :
  forall A (p : A -> bool) l, length (dropWhile p l) <= length l.
Proof.
  intros A p l. induction l as [|x l IH]; simpl; [lia|].
  destruct (p x); simpl; lia.
Qed.



Lemma tableRows_length :
  forall lines, length (snd (tableRows lines)) <= length lines.
Proof.
  induction lines as [|l lines IH]; [simpl; lia|].
  cbn [tableRows].
  destruct (negb (startsWith [ch_pipe] (trim l)) || isTableSeparatorLine l
            || str_eqb (trim l) []); [simpl; lia|].
  destruct (tableRows lines) as [rows rest]. simpl in *. lia.
Qed.

Lemma normalLinesLoop_length :
  forall lines acc, length (snd (normalLinesLoop acc lines)) <= length lines.
Proof.
  induction lines as [|l lines IH]; intros acc; [simpl; lia|].
  cbn [normalLinesLoop].
  destruct (isTableStart (l :: lines)); [simpl; lia|].
  destruct (isBlank l && (0 <? length acc)); [simpl; lia|].
  specialize (IH (acc ++ [l])). simpl. lia.
Qed.

Lemma normalLinesLoop_first :
  forall line rest,
    isTableStart (line :: rest) = false ->
    normalLinesLoop [] (line :: rest) = normalLinesLoop [line] rest.
Proof.
  intros line rest H. cbn [normalLinesLoop]. rewrite H.
  cbn [length Nat.ltb Nat.leb]. rewrite andb_false_r. reflexivity.
Qed.

Lemma normalLinesLoop_acc :
  forall lines acc, exists run, fst (normalLinesLoop acc lines) = acc ++ run.
Proof.
  induction lines as [|l lines IH]; intros acc.
  - exists []. simpl. rewrite app_nil_r. reflexivity.
  - cbn [normalLinesLoop].
    destruct (isTableStart (l :: lines));
      [exists []; simpl; rewrite app_nil_r; reflexivity|].
    destruct (isBlank l && (0 <? length acc));
      [exists []; simpl; rewrite app_nil_r; reflexivity|].
    destruct (IH (acc ++ [l])) as [run E]. exists (l :: run).
    rewrite E, <- app_assoc. reflexivity.
Qed.

(** One iteration of the outer loop, with any fuel left. *)
Lemma mainLoop_step :
  forall fuel line rest,
    mainLoop (S fuel) (line :: rest)
    = if isTableStart (line :: rest) then
        option_map (cons (Table (splitMarkdownRow line)
                            (fst (tableRows (skipn 1 rest)))))
          (mainLoop fuel (snd (tableRows (skipn 1 rest))))
      else
        option_map
          (cons (Prose (stripInlineMarkdown
                          (join ch_LF (fst (normalLinesLoop [line] rest))))))
          (mainLoop fuel
             (dropWhile isBlank (snd (normalLinesLoop [line] rest)))).
Proof.
  intros fuel line rest. cbn [mainLoop].
  destruct (isTableStart (line :: rest)) eqn:E.
  - change (skipn 2 (line :: rest)) with (skipn 1 rest).
    destruct (tableRows (skipn 1 rest)) as [rows rest']. reflexivity.
  - rewrite (normalLinesLoop_first _ _ E).
    destruct (normalLinesLoop_acc rest [line]) as [run Hrun].
    destruct (normalLinesLoop [line] rest) as [nl rest'].
    cbn [fst snd] in *. subst nl. cbn [app length Nat.ltb Nat.leb].
    destruct (mainLoop fuel (dropWhile isBlank rest')); reflexivity.
Qed.

Lemma mainLoop_next_length :
  forall line rest,
    length (snd (tableRows (skipn 1 rest))) <= length rest
    /\ length (dropWhile isBlank (snd (normalLinesLoop [line] rest)))
       <= length rest.
Proof.
  intros line rest. split.
  - pose proof (tableRows_length (skipn 1 rest)) as H.
    pose proof (length_skipn 1 rest) as H1. lia.
  - pose proof (dropWhile_length isBlank (snd (normalLinesLoop [line] rest))).
    pose proof (normalLinesLoop_length rest [line]). lia.
Qed.

(** The loop ends: fuel for one iteration per line is enough, and more
    fuel changes nothing. *)
Lemma mainLoop_fuel :
  forall n lines fuel1 fuel2,
    length lines <= n -> n <= fuel1 -> n <= fuel2 ->
    mainLoop fuel1 lines = mainLoop fuel2 lines.
Proof.
  induction n as [|n IH]; intros lines fuel1 fuel2 Hl H1 H2.
  - destruct lines; [|simpl in Hl; lia].
    destruct fuel1, fuel2; reflexivity.
  - destruct lines as [|line rest]; [destruct fuel1, fuel2; reflexivity|].
    destruct fuel1 as [|f1]; [lia|]. destruct fuel2 as [|f2]; [lia|].
    rewrite !mainLoop_step. simpl in Hl.
    destruct (mainLoop_next_length line rest) as [Ha Hb].
    destruct (isTableStart (line :: rest)).
    + rewrite (IH _ f1 f2); [reflexivity|lia|lia|lia].
    + rewrite (IH _ f1 f2); [reflexivity|lia|lia|lia].
Qed.

Lemma mainLoop_total :
  forall n lines, length lines <= n -> exists segs, mainLoop n lines = Some segs.
Proof.
  induction n as [|n IH]; intros lines Hl.
  - destruct lines; [|simpl in Hl; lia]. exists []. reflexivity.
  - destruct lines as [|line rest]; [exists []; reflexivity|].
    rewrite mainLoop_step. simpl in Hl.
    destruct (mainLoop_next_length line rest) as [Ha Hb].
    destruct (isTableStart (line :: rest)).
    + destruct (IH (snd (tableRows (skipn 1 rest)))) as [segs E]; [lia|].
      rewrite E. eexists. reflexivity.
    + destruct (IH (dropWhile isBlank (snd (normalLinesLoop [line] rest))))
        as [segs E]; [lia|].
      rewrite E. eexists. reflexivity.
Qed.

Lemma scanFrom_total : forall lines, exists segs, scanFrom lines = Some segs.
Proof. intros lines. apply mainLoop_total. lia. Qed.


Lemma scanFrom_step :
  forall line rest,
    scanFrom (line :: rest)
    = if isTableStart (line :: rest) then
        option_map (cons (Table (splitMarkdownRow line)
                            (fst (tableRows (skipn 1 rest)))))
          (scanFrom (snd (tableRows (skipn 1 rest))))
      else
        option_map
          (cons (Prose (stripInlineMarkdown
                          (join ch_LF (fst (normalLinesLoop [line] rest))))))
          (scanFrom (dropWhile isBlank (snd (normalLinesLoop [line] rest)))).
Proof.
  intros line rest. unfold scanFrom. cbn [length]. rewrite mainLoop_step.
  destruct (mainLoop_next_length line rest) as [Ha Hb].
  destruct (isTableStart (line :: rest)).
  - rewrite (@mainLoop_fuel (length (snd (tableRows (skipn 1 rest)))) _
               (length rest) (length (snd (tableRows (skipn 1 rest)))));
      [reflexivity|lia|lia|lia].
  - rewrite (@mainLoop_fuel
               (length (dropWhile isBlank (snd (normalLinesLoop [line] rest))))
               _ (length rest)
               (length (dropWhile isBlank (snd (normalLinesLoop [line] rest)))));
      [reflexivity|lia|lia|lia].
Qed.


(* ================================================================== *)
(** * The renderer: where a table starts *)
(* ================================================================== *)








(** The paragraph loop, once [normalLines] is not empty: it takes the
    lines up to the first one that is blank or starts a table. *)
Lemma normalLinesLoop_run :
  forall lines acc,
    acc <> [] ->
    exists run rest',
      lines = run ++ rest'
      /\ normalLinesLoop acc lines = (acc ++ run, rest')
      /\ Forall (fun l => isBlank l = false) run
      /\ (forall k, k < length run -> isTableStart (skipn k lines) = false)
      /\ (rest' = [] \/ isTableStart rest' = true
          \/ exists b r, rest' = b :: r /\ isBlank b = true).
Proof.
  induction lines as [|l lines IH]; intros acc Hacc.
  - exists [], []. rewrite (app_nil_r acc). repeat split.
    + constructor.
    + intros k Hk. simpl in Hk. lia.
    + left. reflexivity.
  - cbn [normalLinesLoop].
    destruct (isTableStart (l :: lines)) eqn:Et.
    { exists [], (l :: lines). rewrite (app_nil_r acc). repeat split.
      - constructor.
      - intros k Hk. simpl in Hk. lia.
      - right. left. exact Et. }
    assert (Hpos : (0 <? length acc) = true).
    { destruct acc; [congruence|reflexivity]. }
    rewrite Hpos, andb_true_r.
    destruct (isBlank l) eqn:Eb.
    { exists [], (l :: lines). rewrite (app_nil_r acc). repeat split.
      - constructor.
      - intros k Hk. simpl in Hk. lia.
      - right. right. exists l, lines. split; [reflexivity|exact Eb]. }
    destruct (IH (acc ++ [l])) as (run & rest' & E1 & E2 & H1 & H2 & H3).
    { destruct acc; discriminate. }
    exists (l :: run), rest'. repeat split.
    + rewrite E1. reflexivity.
    + rewrite E2, <- app_assoc. reflexivity.
    + constructor; assumption.
    + intros [|k] Hk; [exact Et|]. cbn [skipn]. apply H2.
      simpl in Hk. lia.
    + exact H3.
Qed.

Lemma dropWhile_head :
  forall A (p : A -> bool) l x r, dropWhile p l = x :: r -> p x = false.
Proof.
  intros A p l x r. induction l as [|y l IH]; simpl; [discriminate|].
  destruct (p y) eqn:E; [exact IH|]. intros [= <- _]. exact E.
Qed.

(* ================================================================== *)
(** * The renderer: rendering the rendered text again *)
(* ================================================================== *)


(** ** Replacements that find nothing *)







(** ** Splitting and joining *)











(** ** Blank lines *)

Lemma dropWhile_nil_iff :
  forall A (p : A -> bool) l, dropWhile p l = [] <-> forallb p l = true.
Proof.
  intros A p l. induction l as [|x l IH]; simpl; [tauto|].
  destruct (p x); simpl; [exact IH|]. split; discriminate.
Qed.

Lemma isBlank_iff :
  forall s, isBlank s = true <-> forallb isWhiteSpace s = true.
Proof.
  intros s. unfold isBlank, trim, trimEnd, trimStart. split.
  - intros H.
    destruct (rev (dropWhile isWhiteSpace (rev (dropWhile isWhiteSpace s))))
      as [|c t] eqn:E; [|discriminate].
    apply (f_equal (@rev jschar)) in E. rewrite rev_involutive in E.
    simpl in E. apply dropWhile_nil_iff in E.
    destruct (dropWhile isWhiteSpace s) as [|d u] eqn:Ed.
    + apply dropWhile_nil_iff. exact Ed.
    + pose proof (dropWhile_head _ _ Ed) as Hd.
      rewrite forallb_forall in E.
      rewrite (E d) in Hd; [discriminate|].
      apply -> in_rev. left. reflexivity.
  - intros H. apply dropWhile_nil_iff in H. rewrite H. reflexivity.
Qed.

Lemma trim_nil_iff :
  forall s, trim s = [] <-> forallb isWhiteSpace s = true.
Proof.
  intros s. rewrite <- isBlank_iff. unfold isBlank.
  destruct (trim s); split; congruence.
Qed.


(** ** Lines without a pipe *)








(* ================================================================== *)
(** * Settings *)
(* ================================================================== *)

(** C10: whatever the persisted settings item is (absent, unparsable or
    parsed), after [loadSettings] the temperature is the built-in default 0.7
    and [maxTokens] is the built-in default [null]; the three text fields are
    taken from the item when it has them, and they are the only fields that
    come back from what [saveSettings] wrote. *)
Theorem loadSettings_resets_sampling :
  forall stored : Stored PartialSettings,
    temperature (loadSettings stored) = 0.7%float
    /\ maxTokens (loadSettings stored) = None
    /\ (forall parsed,
          apiBaseUrl (loadSettings (Parsed parsed))
            = orDefault (p_apiBaseUrl parsed) (apiBaseUrl DEFAULT_SETTINGS)
          /\ modelId (loadSettings (Parsed parsed))
            = orDefault (p_modelId parsed) (modelId DEFAULT_SETTINGS)
          /\ systemPrompt (loadSettings (Parsed parsed))
            = orDefault (p_systemPrompt parsed) (systemPrompt DEFAULT_SETTINGS))
    /\ (forall settings,
          loadSettings (saveSettings settings)
            = {| apiBaseUrl := apiBaseUrl settings;
                 modelId := modelId settings;
                 systemPrompt := systemPrompt settings;
                 temperature := 0.7%float;
                 maxTokens := None |}).
Proof.
  intros stored. repeat split.
Qed.

(* ================================================================== *)
(** * Recency order *)
(* ================================================================== *)

(** C6: the list by recency holds all the sessions, each as often as the
    array does, in descending order of [updatedAt], and the sort is stable:
    for every time stamp, the sessions last updated at it come in the order the
    array has them. *)
Theorem listByRecency_stable_descending :
  forall st : Store,
    Permutation (listByRecency st) (sessions st)
    /\ StronglySorted
         (fun a b => (updatedAt (val b) <= updatedAt (val a))%Z)
         (listByRecency st)
    /\ (forall t : Z,
          filter (fun o => (updatedAt (val o) =? t)%Z) (listByRecency st)
          = filter (fun o => (updatedAt (val o) =? t)%Z) (sessions st)).
Proof.
  intros st. unfold listByRecency. split; [|split].
  - apply array_sort_perm.
  - apply (array_sort_descending recencyKey byRecency byRecency_key).
  - intros t.
    apply (array_sort_same_key recencyKey byRecency byRecency_key).
Qed.

(** Three sessions, the first and the last updated at the same time: they
    keep their order, behind the one updated later. *)
Remark listByRecency_tie :
  map (@addr)
    (listByRecency
       {| sessions :=
            [mkObj 0 (mkSession (js "session_1_a") (js "one") [] 1 5);
             mkObj 1 (mkSession (js "session_2_b") (js "two") [] 2 7);
             mkObj 2 (mkSession (js "session_3_c") (js "three") [] 3 5)];
          currentSessionId := Some (js "session_1_a");
          isSending := false;
          nextAddr := 3 |})
  = [1; 0; 2].
Proof. vm_compute. reflexivity. Qed.

(* ================================================================== *)
(** * The current session always exists *)
(* ================================================================== *)

(** [createNewSession] alone leaves the selection to its caller. *)
Remark createNewSession_keeps_current :
  forall title0 now rnd st,
    currentSessionId (snd (createNewSession title0 now rnd st))
    = currentSessionId st.
Proof. reflexivity. Qed.

(** C1: the application loads the sessions when it starts.  After that, and
    after any further sequence of loads, creations, deletions (and of the
    other handlers: selecting, sending, receiving a reply), the array of
    sessions is not empty and the current id is the id of one of its sessions.
    Deleting the only session of the array leaves exactly one session, the one
    just created (no messages, the new-chat title), and it is the current
    one. *)
Theorem currentSessionId_always_valid :
  forall (st : Store) stored now rnd (ops : list Op),
    let st' := run ops (loadSessions stored now rnd st) in
    (sessions st' <> []
     /\ exists o, In o (sessions st')
                  /\ currentSessionId st' = Some (id (val o)))
    /\ (forall o cur sending next now1 rnd1,
          let st1 := {| sessions := [o]; currentSessionId := cur;
                        isSending := sending; nextAddr := next |} in
          let st2 := deleteSession (id (val o)) now1 rnd1 st1 in
          exists o',
            sessions st2 = [o']
            /\ currentSessionId st2 = Some (id (val o'))
            /\ addr o' = next
            /\ val o' = {| id := js "session_" ++ numberToString now1
                                 ++ js "_" ++ rnd1;
                           title := NEW_CHAT_TITLE;
                           messages := [];
                           createdAt := now1;
                           updatedAt := now1 |}).
Proof.
  intros st stored now rnd ops st'.
  assert (Hv : validCurrent st')
    by (apply run_valid, loadSessions_valid).
  split.
  - split.
    + apply validCurrent_nonempty. exact Hv.
    + apply validCurrent_session. exact Hv.
  - intros o cur sending next now1 rnd1 st1 st2.
    subst st2 st1. unfold deleteSession. simpl.
    rewrite str_eqb_refl. simpl.
    eexists. repeat split.
Qed.

(* ================================================================== *)
(** * Sending a message *)
(* ================================================================== *)

(** C3, as the code has it: when no session has the current id,
    [handleSend] returns normally, without an error, and the store (sessions,
    messages, current id) is as before. *)
Theorem handleSend_without_session_is_noop :
  forall value now st,
    (forall c, currentSessionId st = Some c -> ~ In c (sessionIds st)) ->
    handleSend value now st = Normal (st, Ignored)
    /\ (forall e, handleSend value now st <> Throw e).
Proof.
  intros value now st H. apply getCurrentSession_none in H.
  assert (E : handleSend value now st = Normal (st, Ignored)).
  { unfold handleSend. rewrite H. destruct (isSending st); reflexivity. }
  split; [exact E|]. intros e. rewrite E. discriminate.
Qed.

Lemma handleSend_without_session_is_noop_witness :
  handleSend (js "hi") 5 strayStore = Normal (strayStore, Ignored)
  /\ (forall e, handleSend (js "hi") 5 strayStore <> Throw e).
Proof.
  apply (handleSend_without_session_is_noop (js "hi") 5 strayStore).
  intros c E. injection E as <-. vm_compute.
  intros [H|[]]. discriminate H.
Defined.

(** C3 as stated fails: in [strayStore] no session has the current id, and
    sending raises no error. *)
Lemma handleSend_raises_no_NotFound :
  getCurrentSession strayStore = None
  /\ ~ (exists e, handleSend (js "hi") 5 strayStore = Throw e).
Proof.
  split; [reflexivity|]. intros [e H]. vm_compute in H. discriminate H.
Qed.

(** The title made from an empty text is the placeholder; [handleSend]
    never makes a title from an empty text. *)
Remark deriveTitle_placeholder :
  forall s, messages s = [] -> title (deriveTitle [] s) = NEW_CHAT_TITLE.
Proof. intros s H. unfold deriveTitle. rewrite H. reflexivity. Qed.

(** C4, as the code has it: [handleSend] trims the text of the input field.
    When the current session has no message and the trimmed text is not
    empty, the text is appended as the first message and the title becomes the
    text with every run of white space collapsed to one space, cut to 30
    code units: it is never empty, so the placeholder is not used.  An input
    of white space only is ignored: nothing is appended and the title stays.
    Sending ["  hello   world  "] in a new chat gives the title
    ["hello world"]. *)
Theorem first_message_makes_title :
  forall value now st session,
    isSending st = false ->
    getCurrentSession st = Some session ->
    messages (val session) = [] ->
    (forallb isWhiteSpace value = true ->
     handleSend value now st = Normal (st, Ignored))
    /\ (trim value <> [] ->
        exists st' session',
          handleSend value now st = Normal (st', Awaiting (addr session))
          /\ getCurrentSession st' = Some session'
          /\ addr session' = addr session
          /\ messages (val session')
             = [{| role := user; content := trim value; msgCreatedAt := now |}]
          /\ title (val session') = firstn 30 (collapseRuns false (trim value))
          /\ title (val session') <> []
          /\ length (title (val session')) <= 30)
    /\ (exists st' session',
          handleSend (js "  hello   world  ") 2 freshStore
          = Normal (st', Awaiting 0)
          /\ getCurrentSession st' = Some session'
          /\ title (val session') = js "hello world").
Proof.
  intros value now st session Hs Hc Hm. split; [|split].
  - intros Ht. apply trim_nil_iff in Ht.
    unfold handleSend. rewrite Hs, Hc, Ht. reflexivity.
  - intros Ht.
    destruct (handleSend_appends value now st Hs Hc Ht) as [E1 E2].
    cbv zeta in E1, E2.
    eexists. eexists. split; [exact E1|]. split; [exact E2|].
    rewrite (deriveTitle_first (val session) Hm Ht).
    cbn [val addr pushMessage messages title app].
    split; [reflexivity|]. split; [reflexivity|]. split; [reflexivity|].
    split; [|apply firstn_le_length].
    pose proof (collapseRuns_nonempty Ht) as Hne.
    destruct (collapseRuns false (trim value)) as [|c l]; [congruence|].
    change 30 with (S 29). rewrite firstn_cons. discriminate.
  - eexists. eexists. split; [vm_compute; reflexivity|].
    split; vm_compute; reflexivity.
Qed.

Lemma first_message_makes_title_witness :
  exists st' session',
    handleSend (js "  tables,   please ") 2 freshStore
    = Normal (st', Awaiting 0)
    /\ getCurrentSession st' = Some session'
    /\ title (val session') = js "tables, please".
Proof.
  destruct (@first_message_makes_title (js "  tables,   please ") 2
              freshStore
              (mkObj 0 {| id := js "session_1_k3x9ab";
                          title := NEW_CHAT_TITLE;
                          messages := [];
                          createdAt := 1;
                          updatedAt := 1 |})
              eq_refl eq_refl eq_refl) as (_ & H & _).
  destruct H as (st' & session' & H1 & H2 & _ & _ & H5 & _).
  - vm_compute. discriminate.
  - exists st', session'. split; [exact H1|]. split; [exact H2|].
    rewrite H5. vm_compute. reflexivity.
Defined.

(** C4 as stated fails: an input of white space only is not appended, so it
    is the first message of no session. *)
Lemma whitespace_message_is_not_appended :
  handleSend (js "   ") 2 freshStore = Normal (freshStore, Ignored)
  /\ ~ (exists st' w session',
          handleSend (js "   ") 2 freshStore = Normal (st', w)
          /\ getCurrentSession st' = Some session'
          /\ length (messages (val session')) = 1
          /\ title (val session') = NEW_CHAT_TITLE).
Proof.
  assert (E : handleSend (js "   ") 2 freshStore = Normal (freshStore, Ignored))
    by (vm_compute; reflexivity).
  split; [exact E|].
  intros (st' & w & session' & H1 & H2 & H3 & _).
  rewrite E in H1. injection H1 as <- _.
  vm_compute in H2. injection H2 as <-. discriminate H3.
Qed.

(** C8, as the code has it: both appends of [handleSend] (the user's text,
    then the reply or the error text) set [updatedAt] of the session they
    append to to the time of the append.  When the clock never goes back along
    a run, and the sessions held before it or read from persistence during it
    have [createdAt <= updatedAt <=] the time of the next operation, then
    after the run every session has [createdAt <= updatedAt], and a run of
    appends leaves no session with an earlier [updatedAt]. *)
Theorem appends_refresh_updatedAt :
  forall (t : Z) (st : Store) (ops : list Op),
    timely t (sessions st) ->
    chronological t ops = true ->
    (forall value now st0 st1 r,
        handleSend value now st0 = Normal (st1, Awaiting r) ->
        (exists o, getCurrentSession st1 = Some o /\ addr o = r
                   /\ updatedAt (val o) = now)
        /\ forall o, In o (sessions st1) -> addr o = r ->
                     updatedAt (val o) = now)
    /\ (forall r reply t2 st0 o,
          In o (sessions (handleSendResume r reply t2 st0)) -> addr o = r ->
          updatedAt (val o) = t2)
    /\ Forall (fun o => (createdAt (val o) <= updatedAt (val o))%Z)
         (sessions (run ops st))
    /\ (forallb isAppend ops = true ->
        notOlder (sessions st) (sessions (run ops st))).
Proof.
  intros t st ops H Hc. split; [|split; [|split]].
  - intros value now st0 st1 r E.
    destruct (handleSend_cases value now st0) as [E'|(session & E' & Hs & Hcur & Ht)];
      cbv zeta in E'; rewrite E' in E; [discriminate|].
    injection E as <- <-.
    destruct (handleSend_appends value now st0 Hs Hcur Ht) as [_ E2].
    cbv zeta in E2. split.
    + eexists. split; [exact E2|]. split; [reflexivity|].
      apply timely_pushed.
    + intros o Ho Ha. simpl in Ho.
      destruct (@updateObj_target _ _ _ _ Ho Ha) as (o0 & _ & _ & ->).
      apply timely_pushed.
  - intros r reply t2 st0 o Ho Ha. simpl in Ho.
    destruct (@updateObj_target _ _ _ _ Ho Ha) as (o0 & _ & _ & ->).
    reflexivity.
  - destruct (run_timely ops st H Hc) as [t' Ht'].
    eapply Forall_impl; [|exact Ht']. simpl. intros o Ho. lia.
  - intros Ha. eapply appends_notOlder; eassumption.
Qed.

Lemma appends_refresh_updatedAt_witness :
  Forall (fun o => (createdAt (val o) <= updatedAt (val o))%Z)
    (sessions (run [OpLoad Absent 1 (js "k3x9ab");
                    OpSend (js "hello") 2;
                    OpReply 0 (Normal (js "hi there")) 3;
                    OpNewChat 3 (js "p0q1rs")] initStore)).
Proof.
  destruct (@appends_refresh_updatedAt 0 initStore
              [OpLoad Absent 1 (js "k3x9ab");
               OpSend (js "hello") 2;
               OpReply 0 (Normal (js "hi there")) 3;
               OpNewChat 3 (js "p0q1rs")])
    as (_ & _ & H & _).
  - constructor.
  - reflexivity.
  - exact H.
Defined.

(** C8 as stated fails: when the clock goes back between the creation of a
    session (time 10) and an append to it (time 5), the session ends with
    [updatedAt] before [createdAt]; and a session read from persistence with
    [updatedAt] before [createdAt] is kept as it is. *)
Lemma updatedAt_can_precede_createdAt :
  Exists (fun o => (updatedAt (val o) < createdAt (val o))%Z)
    (sessions (run [OpLoad Absent 10 (js "k3x9ab"); OpSend (js "hello") 5]
                 initStore))
  /\ Exists (fun o => (updatedAt (val o) < createdAt (val o))%Z)
       (sessions (run [OpLoad (Parsed [{| id := js "session_10_k3x9ab";
                                           title := js "hello";
                                           messages := [];
                                           createdAt := 10;
                                           updatedAt := 5 |}])
                         20 (js "p0q1rs")]
                    initStore)).
Proof.
  split; vm_compute; constructor; reflexivity.
Qed.

(* ================================================================== *)
(** * Search *)
(* ================================================================== *)

(** C7, as the code has it, for every lower-casing function that maps the
    empty string to itself: the keyword is trimmed and lower-cased; a keyword
    that is empty or white space only matches nothing; otherwise a session
    matches exactly when the keyword occurs in its lower-cased title or in the
    lower-cased content of one of its messages.  The matching sessions come in
    the order of the array [sessions]; this is the order of [listByRecency]
    when the array is in descending order of [updatedAt]. *)
Theorem searchChat_matches_in_array_order :
  forall lower : jsstring -> jsstring,
    lower [] = [] ->
    forall keyword st,
      (forallb isWhiteSpace keyword = true ->
       searchMatched lower keyword st = [])
      /\ (forall o,
            In o (searchMatched lower keyword st) <->
            lower (trim keyword) <> []
            /\ In o (sessions st)
            /\ (occursIn (lower (trim keyword)) (lower (title (val o)))
                \/ exists m, In m (messages (val o))
                             /\ occursIn (lower (trim keyword))
                                  (lower (content m))))
      /\ searchMatched lower keyword st
         = filter (keptBySearch lower keyword) (sessions st)
      /\ (descending recencyKey (sessions st) ->
          searchMatched lower keyword st
          = filter (keptBySearch lower keyword) (listByRecency st)).
Proof.
  intros lower Hnil keyword st. split; [|split; [|split]].
  - intros Ht. apply trim_nil_iff in Ht.
    unfold searchMatched. rewrite Ht, Hnil. reflexivity.
  - intros o. unfold searchMatched.
    destruct (lower (trim keyword)) as [|c q] eqn:Eq.
    + simpl. split; [contradiction|]. intros [H _]. congruence.
    + cbn [length Nat.eqb]. rewrite filter_In.
      rewrite (@sessionMatches_occursIn lower (c :: q) (val o) Hnil)
        by discriminate.
      split.
      * intros [H1 H2]. split; [discriminate|]. split; assumption.
      * intros (_ & H1 & H2). split; assumption.
  - apply searchMatched_filter.
  - intros Hd. rewrite searchMatched_filter. unfold listByRecency.
    rewrite (@array_sort_descending_id _ recencyKey byRecency byRecency_key _ Hd).
    reflexivity.
Qed.

Lemma searchChat_matches_in_array_order_witness :
  In (mkObj 0 {| id := js "session_1_k3x9ab";
                 title := js "Weather";
                 messages := [];
                 createdAt := 1;
                 updatedAt := 1 |})
     (searchMatched toLowerCaseLatin (js "  WEATHER ")
        {| sessions := [mkObj 0 {| id := js "session_1_k3x9ab";
                                   title := js "Weather";
                                   messages := [];
                                   createdAt := 1;
                                   updatedAt := 1 |}];
           currentSessionId := Some (js "session_1_k3x9ab");
           isSending := false;
           nextAddr := 1 |}).
Proof.
  apply (@searchChat_matches_in_array_order toLowerCaseLatin eq_refl).
  split; [vm_compute; discriminate|].
  split; [left; reflexivity|].
  left. exists [], []. vm_compute. reflexivity.
Defined.

(** C7 as stated fails on the order: in [busyStore] both chats match
    ["chat"]; the search gives them in the order of the array (the newer chat,
    object 1, first), [listByRecency] has the chat written to last (object 0)
    first. *)
Lemma search_order_is_not_recency_order :
  map (@addr) (searchMatched toLowerCaseLatin (js "chat") busyStore) = [1; 0]
  /\ map (@addr) (listByRecency busyStore) = [0; 1]
  /\ searchMatched toLowerCaseLatin (js "chat") busyStore
     <> filter (keptBySearch toLowerCaseLatin (js "chat"))
          (listByRecency busyStore).
Proof.
  split; [vm_compute; reflexivity|].
  split; [vm_compute; reflexivity|].
  intros H. apply (f_equal (map (@addr))) in H.
  vm_compute in H. discriminate H.
Qed.

(* ================================================================== *)
(** * The renderer *)
(* ================================================================== *)


(** Inside a table the test is not made: a line that starts with a pipe is
    read as a row, also when a separator line follows it, and the separator
    line ends the table. *)
Remark row_before_separator_is_a_row :
  renderMessageContentWithTables
    (js ("|a|" ++ LF ++ "|-|" ++ LF ++ "|b|" ++ LF ++ "|-|" ++ LF ++ "|c|"))
  = Some [Table [js "a"] [[js "b"]]; Prose (js ("|-|" ++ LF ++ "|c|"))].
Proof. vm_compute. reflexivity. Qed.

(** C5, as the code has it: where no table starts, the line at hand, blank
    or not, opens a paragraph; the lines after it are added up to the first
    one that is blank or starts a table; the paragraph's text is these lines
    joined by line feeds, with the inline marks stripped; the blank lines that
    follow are passed over, so that the scan goes on at a line that is not
    blank.  So ["hello\n\nworld"] gives the two paragraphs [hello] and
    [world], and a text that begins with a blank line gives a paragraph that
    begins with it. *)
Theorem prose_run_until_blank_or_table :
  forall (line : jsstring) (rest : list jsstring),
    (isTableStart (line :: rest) = false ->
     exists run rest' segs,
       rest = run ++ rest'
       /\ Forall (fun l => isBlank l = false) run
       /\ (forall k, k < length run -> isTableStart (skipn k rest) = false)
       /\ (rest' = [] \/ isTableStart rest' = true
           \/ exists b r, rest' = b :: r /\ isBlank b = true)
       /\ (forall l r, dropWhile isBlank rest' = l :: r -> isBlank l = false)
       /\ scanFrom (dropWhile isBlank rest') = Some segs
       /\ scanFrom (line :: rest)
          = Some (Prose (stripInlineMarkdown (join ch_LF (line :: run)))
                    :: segs))
    /\ renderMessageContentWithTables (js ("hello" ++ LF ++ LF ++ "world"))
       = Some [Prose (js "hello"); Prose (js "world")]
    /\ renderMessageContentWithTables (js (LF ++ "hello"))
       = Some [Prose (js (LF ++ "hello"))].
Proof.
  intros line rest. split; [|split; vm_compute; reflexivity].
  intros Et.
  destruct (@normalLinesLoop_run rest [line])
    as (run & rest' & E1 & E2 & H1 & H2 & H3); [discriminate|].
  destruct (scanFrom_total (dropWhile isBlank rest')) as [segs Es].
  exists run, rest', segs.
  split; [exact E1|]. split; [exact H1|]. split; [exact H2|].
  split; [exact H3|].
  split; [intros l r H; apply (dropWhile_head _ _ H)|].
  split; [exact Es|].
  rewrite scanFrom_step, Et, E2. cbn [fst snd]. rewrite Es. reflexivity.
Qed.

Lemma prose_run_until_blank_or_table_witness :
  exists run rest' segs,
    [js "there"; js ""; js "world"] = run ++ rest'
    /\ Forall (fun l => isBlank l = false) run
    /\ (forall k, k < length run ->
          isTableStart (skipn k [js "there"; js ""; js "world"]) = false)
    /\ (rest' = [] \/ isTableStart rest' = true
        \/ exists b r, rest' = b :: r /\ isBlank b = true)
    /\ (forall l r, dropWhile isBlank rest' = l :: r -> isBlank l = false)
    /\ scanFrom (dropWhile isBlank rest') = Some segs
    /\ scanFrom [js "hello"; js "there"; js ""; js "world"]
       = Some (Prose (stripInlineMarkdown (join ch_LF (js "hello" :: run)))
                 :: segs).
Proof.
  apply (proj1 (prose_run_until_blank_or_table
                  (js "hello") [js "there"; js ""; js "world"])).
  reflexivity.
Defined.

(** C5 as stated fails: blank lines before any content are not passed over;
    the first one makes a paragraph of its own, with an empty text. *)
Lemma leading_blank_lines_make_a_paragraph :
  renderMessageContentWithTables (js (LF ++ LF ++ "hello"))
  = Some [Prose []; Prose (js "hello")]
  /\ renderMessageContentWithTables (js (LF ++ LF ++ "hello"))
     <> Some [Prose (js "hello")].
Proof.
  split; [vm_compute; reflexivity|]. vm_compute. discriminate.
Qed.




(** The stripping is done in one pass: what it leaves can hold marks. *)
Remark stripping_once_leaves_marks :
  renderMessageContentWithTables (js "****a****") = Some [Prose (js "**a**")]
  /\ renderMessageContentWithTables (js "**a**") = Some [Prose (js "a")].
Proof. split; vm_compute; reflexivity. Qed.

(** Without any mark, paragraphs with pipes can join into a table: the
    rendered text has no separation between two paragraphs. *)
Remark paragraphs_with_pipes_can_join :
  exists segs,
    renderMessageContentWithTables
      (js ("|a|" ++ LF ++ "|" ++ LF ++ LF ++ "-|")) = Some segs
    /\ renderMessageContentWithTables (textContent segs)
       = Some [Table [js "a"] []].
Proof. eexists. split; vm_compute; reflexivity. Qed.
